(** * fix-modals.py: the alert/confirm to modal patcher

    A shallow embedding of [fix-modals.py].  The script reads
    [src/index.tsx] and [modal-inject.html], pushes the first text through
    fifteen [str.replace] calls and one [re.sub], and writes the result back
    to [src/index.tsx].

    Python text ([str]) is a sequence of Unicode code points; it is modelled
    as a list of code points in [N].  The file system is a finite map from
    paths to files, and the script itself runs in a small state-and-error
    monad over the file system and standard output. *)

From Stdlib Require Import NArith Ascii String List Bool Lia.
From stdpp Require Import gmap strings list.

Local Open Scope list_scope.

(** ** Text *)

Module Text.

(** A Python [str]: a list of code points. *)
Definition str : Type := list N.

(** The code points of an ASCII literal of the script. *)
Definition lit (s : string) : str :=
  List.map N_of_ascii (list_ascii_of_string s).

(** U+000A LINE FEED. *)
Definition LF : N := 10%N.

(** [s.startswith(p)]. *)
Fixpoint starts_with (p s : str) : bool :=
  match p, s with
  | [], _ => true
  | _ :: _, [] => false
  | a :: p', b :: s' => N.eqb a b && starts_with p' s'
  end.

(** [m in s]: [m] occurs in [s] as a substring. *)
Fixpoint occurs (m s : str) : bool :=
  starts_with m s ||
  match s with
  | [] => false
  | _ :: s' => occurs m s'
  end.

(** The number of positions of [s] at which [m] occurs. *)
Fixpoint occurrences (m s : str) : nat :=
  (if starts_with m s then 1 else 0) +
  match s with
  | [] => 0
  | _ :: s' => occurrences m s'
  end.

(** The scan of [str.replace] for a non-empty [old]: walk the text from the
    left; at a position where [old] starts, emit [new] and jump over the
    occurrence ([skip] counts the code points of it still to pass), elsewhere
    copy the code point. *)
Fixpoint replace_from (old new : str) (skip : nat) (s : str) : str :=
  match s with
  | [] => []
  | c :: s' =>
      match skip with
      | S k => replace_from old new k s'
      | O =>
          if starts_with old s
          then new ++ replace_from old new (length old - 1) s'
          else c :: replace_from old new 0 s'
      end
  end.

(** [s.replace(old, new)]: every non-overlapping occurrence of [old], found
    from the left, becomes [new].  For the empty [old] Python puts [new]
    before every code point and at the end. *)
Definition replace (old new s : str) : str :=
  match old with
  | [] => new ++ flat_map (fun c => c :: new) s
  | _ :: _ => replace_from old new 0 s
  end.

(** [s.split('\n')]: the lines of a text. *)
Fixpoint lines (s : str) : list str :=
  match s with
  | [] => [[]]
  | c :: s' =>
      if N.eqb c LF then [] :: lines s'
      else match lines s' with
           | l :: ls => (c :: l) :: ls
           | [] => [[c]]
           end
  end.

(** ['\n'.join(ls)]. *)
Fixpoint unlines (ls : list str) : str :=
  match ls with
  | [] => []
  | [l] => l
  | l :: ls' => l ++ LF :: unlines ls'
  end.

(** [a == b]. *)
Fixpoint str_eqb (a b : str) : bool :=
  match a, b with
  | [], [] => true
  | x :: a', y :: b' => N.eqb x y && str_eqb a' b'
  | _, _ => false
  end.

(** The non-empty suffixes of a text, longest first. *)
Fixpoint tails (s : str) : list str :=
  match s with
  | [] => []
  | _ :: s' => s :: tails s'
  end.

(** One of the two texts is a prefix of the other. *)
Definition comparable (a b : str) : bool :=
  starts_with a b || starts_with b a.

(** [m] and [w] can overlap: laid over each other at some offset with at
    least one common position, they agree wherever both are present. *)
Definition clash (m w : str) : bool :=
  existsb (fun t => comparable t w) (tails m) ||
  existsb (fun t => comparable t m) (tails w).

(** No proper non-empty suffix of [m] is a prefix of [m]: two occurrences of
    [m] never overlap. *)
Definition border_free (m : str) : bool :=
  match m with
  | [] => false
  | _ :: m' => forallb (fun t => negb (starts_with t m)) (tails m')
  end.

End Text.

Import Text.

(** ** Regular expressions (the fragment the script uses) *)

Module Re.

(** The pattern of the script is a concatenation of literal characters (an
    escaped parenthesis is a literal, and so is a brace that opens no
    repetition) and one capturing group around literal text. *)
Inductive item : Type :=
  | Chr (c : N)
  | Group (body : str).

Definition regex : Type := list item.

(** A replacement template: literal characters and group references. *)
Inductive titem : Type :=
  | TChr (c : N)
  | TRef (n : nat).

Definition template : Type := list titem.

(** The rest of [s] behind the prefix [p], when [s] starts with [p]. *)
Fixpoint strip (p s : str) : option str :=
  match p, s with
  | [], _ => Some s
  | _ :: _, [] => None
  | a :: p', b :: s' => if N.eqb a b then strip p' s' else None
  end.

(** Match the pattern at the start of [s]: the captured groups in order and
    the number of code points consumed. *)
Fixpoint match_at (r : regex) (s : str) : option (list str * nat) :=
  match r with
  | [] => Some ([], 0)
  | Chr c :: r' =>
      match s with
      | b :: s' =>
          if N.eqb c b
          then match match_at r' s' with
               | Some (gs, n) => Some (gs, S n)
               | None => None
               end
          else None
      | [] => None
      end
  | Group body :: r' =>
      match strip body s with
      | Some rest =>
          match match_at r' rest with
          | Some (gs, n) => Some (body :: gs, length body + n)
          | None => None
          end
      | None => None
      end
  end.

(** The text a pattern of this fragment matches, and what its groups
    capture on a match. *)
Fixpoint text (r : regex) : str :=
  match r with
  | [] => []
  | Chr c :: r' => c :: text r'
  | Group body :: r' => body ++ text r'
  end.

Fixpoint groups (r : regex) : list str :=
  match r with
  | [] => []
  | Chr _ :: r' => groups r'
  | Group body :: r' => body :: groups r'
  end.

(** Expand a template with the captured groups; [\1] is the first group. *)
Fixpoint expand (t : template) (gs : list str) : str :=
  match t with
  | [] => []
  | TChr c :: t' => c :: expand t' gs
  | TRef n :: t' => nth (n - 1) gs [] ++ expand t' gs
  end.

(** [re.search(r, s) is not None]. *)
Fixpoint search (r : regex) (s : str) : bool :=
  match match_at r s with
  | Some _ => true
  | None => match s with
            | [] => false
            | _ :: s' => search r s'
            end
  end.

(** The scan of [re.sub] for a pattern that consumes at least one code
    point: the leftmost match is replaced by the expanded template and the
    scan goes on behind it. *)
Fixpoint sub_from (r : regex) (t : template) (skip : nat) (s : str) : str :=
  match s with
  | [] => []
  | c :: s' =>
      match skip with
      | S k => sub_from r t k s'
      | O =>
          match match_at r s with
          | Some (gs, n) => expand t gs ++ sub_from r t (n - 1) s'
          | None => c :: sub_from r t 0 s'
          end
      end
  end.

(** [re.sub(r, t, s)]. *)
Definition sub (r : regex) (t : template) (s : str) : str :=
  sub_from r t 0 s.

End Re.

(** ** The replacement rules of the script *)

Module Rules.

(** U+2705 WHITE HEAVY CHECK MARK and U+274C CROSS MARK. *)
Definition CHECK_MARK : N := 9989%N.
Definition CROSS_MARK : N := 10060%N.

(** A literal rule: the two arguments of one [content.replace] call. *)
Record rule : Type := Rule { rmatch : str; rrepl : str }.

Definition login_booking : rule :=
  Rule (lit "alert('Please log in to continue booking');")
       (lit "await showAlert('Please log in to continue booking', 'Login Required');").

Definition login_booking_dot : rule :=
  Rule (lit "alert('Please log in to continue booking.')")
       (lit "await showAlert('Please log in to continue booking.', 'Login Required')").

Definition select_dj : rule :=
  Rule (lit "alert('Please select a DJ first.');")
       (lit "await showAlert('Please select a DJ first.', 'Selection Required');").

Definition select_date : rule :=
  Rule (lit "alert('Please select a date first.');")
       (lit "await showAlert('Please select a date first.', 'Selection Required');").

Definition login_continue : rule :=
  Rule (lit "alert('Please log in to continue.');")
       (lit "await showAlert('Please log in to continue.', 'Login Required');").

Definition no_booking_data : rule :=
  Rule (lit "alert('No booking data found. Please start from the beginning.');")
       (lit "await showAlert('No booking data found. Please start from the beginning.', 'Error');").

Definition login_your_booking : rule :=
  Rule (lit "alert('Please log in to continue with your booking.');")
       (lit "await showAlert('Please log in to continue with your booking.', 'Login Required');").

Definition session_expired : rule :=
  Rule (lit "alert('Your session has expired. Please log in again.');")
       (lit "await showAlert('Your session has expired. Please log in again.', 'Session Expired');").

Definition error_message : rule :=
  Rule (lit "alert('Error: ' + error.message);")
       (lit "await showError('Error: ' + error.message, 'Booking Error');").

Definition status_updated : rule :=
  Rule (lit "alert('" ++ CHECK_MARK :: lit " Booking status updated successfully!')")
       (lit "await showSuccess('Booking status updated successfully!', 'Success')").

Definition status_failed : rule :=
  Rule (lit "alert('" ++ CROSS_MARK :: lit " Failed to update status: ' + response.data.error)")
       (lit "await showError('Failed to update status: ' + response.data.error, 'Update Failed')").

Definition status_error : rule :=
  Rule (lit "alert('" ++ CROSS_MARK :: lit " Error updating status')")
       (lit "await showError('Error updating status', 'Update Failed')").

Definition confirm_dj : rule :=
  Rule (lit "const shouldLogin = confirm('You need to be logged in to book a DJ. Would you like to log in now?');")
       (lit "const shouldLogin = await showConfirm('You need to be logged in to book a DJ. Would you like to log in now?', 'Login Required');").

Definition confirm_photobooth : rule :=
  Rule (lit "const shouldLogin = confirm('You need to be logged in to book a photobooth. Would you like to log in now?');")
       (lit "const shouldLogin = await showConfirm('You need to be logged in to book a photobooth. Would you like to log in now?', 'Login Required');").

Definition dom_content_loaded : rule :=
  Rule (lit "window.addEventListener('DOMContentLoaded', () => {")
       (lit "window.addEventListener('DOMContentLoaded', async () => {").

(** The literal rules, in the order of the script. *)
Definition literal_rules : list rule :=
  [ login_booking; login_booking_dot; select_dj; select_date; login_continue;
    no_booking_data; login_your_booking; session_expired; error_message;
    status_updated; status_failed; status_error;
    confirm_dj; confirm_photobooth; dom_content_loaded ].

(** The three rules whose match starts its message with an emoji. *)
Definition emoji_rules : list rule :=
  [ status_updated; status_failed; status_error ].

(** The pattern [(continueToCalendar\(\)) {] and the template [\1 async {]
    of the [re.sub] call. *)
Definition calendar_pattern : Re.regex :=
  [ Re.Group (lit "continueToCalendar()"); Re.Chr 32%N; Re.Chr 123%N ].

Definition calendar_template : Re.template :=
  Re.TRef 1 :: List.map Re.TChr (lit " async {").

(** The pattern rule read as a literal rule: the text the pattern matches
    and the text the template expands to ([calendar_as_literal] below shows
    that the two readings agree). *)
Definition calendar : rule :=
  Rule (lit "continueToCalendar() {") (lit "continueToCalendar() async {").

(** All sixteen rules in declaration order. *)
Definition all_rules : list rule := literal_rules ++ [calendar].

(** One [content = content.replace(old, new)] statement. *)
Definition apply_rule (r : rule) (content : str) : str :=
  replace (rmatch r) (rrepl r) content.

(** A list of rules applied one after the other. *)
Definition run_rules (rs : list rule) (content : str) : str :=
  fold_left (fun c r => apply_rule r c) rs content.

(** The content transformation of the script: lines 22 to 105. *)
Definition patch (content : str) : str :=
  let content := apply_rule login_booking content in
  let content := apply_rule login_booking_dot content in
  let content := apply_rule select_dj content in
  let content := apply_rule select_date content in
  let content := apply_rule login_continue content in
  let content := apply_rule no_booking_data content in
  let content := apply_rule login_your_booking content in
  let content := apply_rule session_expired content in
  let content := apply_rule error_message content in
  let content := apply_rule status_updated content in
  let content := apply_rule status_failed content in
  let content := apply_rule status_error content in
  let content := apply_rule confirm_dj content in
  let content := apply_rule confirm_photobooth content in
  let content := apply_rule dom_content_loaded content in
  Re.sub calendar_pattern calendar_template content.

(** The message of a call: the text of its first quoted string. *)
Fixpoint until_quote (s : str) : str :=
  match s with
  | [] => []
  | c :: s' => if N.eqb c 39%N then [] else c :: until_quote s'
  end.

Fixpoint message (s : str) : str :=
  match s with
  | [] => []
  | c :: s' => if N.eqb c 39%N then until_quote s' else message s'
  end.

(** Decidable checks over the rule table. *)

(** [P a b] for every rule [a] declared before a rule [b]. *)
Fixpoint earlier_later (P : rule -> rule -> bool) (rs : list rule) : bool :=
  match rs with
  | [] => true
  | r :: rs' => forallb (P r) rs' && earlier_later P rs'
  end.

(** No match can overlap a replacement, whatever the two rules. *)
Definition repl_independent (rs : list rule) : bool :=
  forallb (fun a => forallb (fun b => negb (clash (rmatch a) (rrepl b))) rs) rs.

(** The matches of two different rules cannot overlap, and no match can
    overlap itself. *)
Definition match_independent (rs : list rule) : bool :=
  earlier_later (fun a b => negb (clash (rmatch a) (rmatch b))) rs &&
  forallb (fun a => border_free (rmatch a)) rs.


Definition rule_eqb (a b : rule) : bool :=
  str_eqb (rmatch a) (rmatch b) && str_eqb (rrepl a) (rrepl b).

(** No rule of the table but [r] has a match in the document. *)
Definition only_rule (r : rule) (d : str) : Prop :=
  forall r', In r' all_rules -> r' <> r -> occurs (rmatch r') d = false.

Definition only_ruleb (r : rule) (d : str) : bool :=
  forallb (fun r' => rule_eqb r' r || negb (occurs (rmatch r') d)) all_rules.

End Rules.

Import Rules.

(** ** The script *)

Module Script.

(** A file holds text, or bytes that do not decode as text. *)
Inductive file : Type :=
  | TextFile (content : str)
  | Undecodable.

(** What a failed read raises. *)
Inductive io_error : Type :=
  | FileNotFound (path : string)
  | DecodeError (path : string).

(** The world the script acts on: the files by path and what was printed.
    Files are kept by path, so two names of one file (links) are outside
    the model. *)
Record world : Type := World { files : gmap string file; stdout : list string }.

Inductive outcome (A : Type) : Type :=
  | Done (a : A)
  | Raised (e : io_error).

Arguments Done {A} a.
Arguments Raised {A} e.

(** A statement: it ends normally or raises, and leaves a world behind. *)
Definition io (A : Type) : Type := world -> outcome A * world.

Definition ret {A : Type} (a : A) : io A := fun w => (Done a, w).

Definition bind {A B : Type} (m : io A) (k : A -> io B) : io B :=
  fun w =>
    match m w with
    | (Done a, w') => k a w'
    | (Raised e, w') => (Raised e, w')
    end.

Notation "x <- m ;; k" := (bind m (fun x => k))
  (at level 90, m at level 80, right associativity).
Notation "m ;;; k" := (bind m (fun _ => k))
  (at level 90, right associativity).

(** [with open(path, 'r') as f: f.read()].  The text of a file is what the
    read returns; the newline translation of text mode (CR LF and CR read
    as LF) is not modelled. *)
Definition read_text (path : string) : io str :=
  fun w =>
    match files w !! path with
    | None => (Raised (FileNotFound path), w)
    | Some Undecodable => (Raised (DecodeError path), w)
    | Some (TextFile content) => (Done content, w)
    end.

(** [with open(path, 'w') as f: f.write(content)]: the file is created or
    overwritten as a whole.  A failing write (an unwritable file, a full
    disk) is not modelled: here a write always succeeds. *)
Definition write_text (path : string) (content : str) : io unit :=
  fun w => (Done tt, World (<[path := TextFile content]> (files w)) (stdout w)).

(** [print(line)]. *)
Definition print (line : string) : io unit :=
  fun w => (Done tt, World (files w) (stdout w ++ [line])).

Definition source_path : string := "src/index.tsx".
Definition modal_html_path : string := "modal-inject.html".

(** The script from top to bottom.  [modal_script], a constant bound at
    lines 12 to 19 and used nowhere, has no effect and is left out. *)
Definition fix_modals : io unit :=
  content <- read_text source_path ;;
  modal_html <- read_text modal_html_path ;;
  let content := patch content in
  print "Replacements completed!" ;;;
  print "Saving to src/index.tsx..." ;;;
  write_text source_path content ;;;
  print "Done! File updated." ;;;
  print (String (ascii_of_nat 10)
           "Note: You still need to inject the modal HTML into pages manually.") ;;;
  print "The modal HTML is already injected in DJ services page.".

(** The read of [path] succeeds. *)
Definition readable (w : world) (path : string) : Prop :=
  exists content, files w !! path = Some (TextFile content).

(** The script raised. *)
Definition failed {A : Type} (r : outcome A * world) : Prop :=
  match fst r with
  | Raised _ => True
  | Done _ => False
  end.

End Script.

Import Script.

(** ** Statements of the specification that the code refutes *)

Module Stated.

(** "The input contains the line [alert('Please select a DJ first.');] and
    no match of another rule; afterwards that line reads
    [await showAlert('Please select a DJ first.', 'Selection Required');]
    and every other line is identical to the input." *)
Definition dj_line_scenario (d : str) : Prop :=
  In (rmatch select_dj) (lines d) ->
  only_rule select_dj d ->
  Forall2 (fun l l' => (l = rmatch select_dj -> l' = rrepl select_dj) /\
                       (l <> rmatch select_dj -> l' = l))
          (lines d) (lines (patch d)).

(** "A document with exactly one occurrence of the rule's match comes out
    with that occurrence replaced and no other region changed." *)
Definition single_occurrence (r : rule) (u v : str) : Prop :=
  occurrences (rmatch r) (u ++ rmatch r ++ v) = 1 ->
  patch (u ++ rmatch r ++ v) = u ++ rrepl r ++ v.

(** Two lines with the DJ alert, the second one behind an [else]. *)
Definition two_dj_lines : str :=
  rmatch select_dj ++ LF :: lit "else " ++ rmatch select_dj.

(** A first line with the login alert of the first rule. *)
Definition login_line : str := rmatch login_booking ++ [LF].

End Stated.

(** ** Facts about text *)

Module TextFacts.

Lemma starts_with_spec (p s : str) :
  starts_with p s = true <-> exists k, s = p ++ k.
Proof.
  revert s. induction p as [|a p IH]; intros s; simpl.
  - split; [intros _; now exists s | reflexivity].
  - destruct s as [|b s].
    + split; [discriminate | intros [k Hk]; discriminate].
    + rewrite andb_true_iff, N.eqb_eq, IH. split.
      * intros [-> [k ->]]. now exists k.
      * intros [k Hk]. injection Hk as -> ->. split; [reflexivity | now exists k].
Qed.

Lemma starts_with_app (p k : str) : starts_with p (p ++ k) = true.
Proof. apply starts_with_spec. now exists k. Qed.

Lemma starts_with_refl (p : str) : starts_with p p = true.
Proof. apply starts_with_spec. exists []. now rewrite app_nil_r. Qed.

Lemma starts_with_app_l (m a r : str) :
  starts_with m a = true -> starts_with m (a ++ r) = true.
Proof.
  rewrite !starts_with_spec. intros [k ->]. exists (k ++ r).
  now rewrite app_assoc.
Qed.

Lemma starts_with_nil_r (p : str) : starts_with p [] = true -> p = [].
Proof. destruct p; [reflexivity | discriminate]. Qed.

Lemma starts_with_length (p s : str) :
  starts_with p s = true -> length p <= length s.
Proof.
  intros H. apply starts_with_spec in H as [k ->].
  rewrite length_app. lia.
Qed.

Lemma starts_with_drop (p s : str) :
  starts_with p s = true -> s = p ++ drop (length p) s.
Proof.
  intros H. apply starts_with_spec in H as [k ->].
  now rewrite drop_app_length.
Qed.

(** A text that starts [a ++ r] lies within [a] or runs over its end. *)
Lemma starts_with_app_inv (m a r : str) :
  starts_with m (a ++ r) = true ->
  starts_with m a = true \/
  exists q, q <> [] /\ m = a ++ q /\ starts_with q r = true.
Proof.
  revert m. induction a as [|c a IH]; intros m H; simpl in *.
  - destruct m as [|x m]; [now left |].
    right. exists (x :: m). repeat split; [discriminate | exact H].
  - destruct m as [|x m]; [now left |].
    simpl in H. apply andb_true_iff in H as [Hx H].
    apply N.eqb_eq in Hx as ->.
    destruct (IH m H) as [Hm | (q & Hq & -> & Hr)].
    + left. simpl. now rewrite N.eqb_refl.
    + right. exists q. repeat split; assumption.
Qed.

(** Two prefixes of one text: one is a prefix of the other. *)
Lemma starts_with_comparable (m t r : str) :
  starts_with m (t ++ r) = true -> comparable m t = true.
Proof.
  intros H. unfold comparable. apply orb_true_iff.
  destruct (starts_with_app_inv _ _ _ H) as [Hm | (q & _ & -> & _)].
  - now left.
  - right. apply starts_with_app.
Qed.

Lemma comparable_sym (a b : str) : comparable a b = comparable b a.
Proof. unfold comparable. apply orb_comm. Qed.

Lemma in_tails (t s : str) :
  In t (tails s) <-> t <> [] /\ exists u, s = u ++ t.
Proof.
  induction s as [|c s IH]; simpl.
  - split; [tauto |]. intros [Ht [u Hu]].
    symmetry in Hu. apply app_eq_nil in Hu as [_ ->]. now apply Ht.
  - rewrite IH. split.
    + intros [<- | [Ht [u ->]]].
      * split; [discriminate | now exists []].
      * split; [exact Ht | now exists (c :: u)].
    + intros [Ht [u Hu]]. destruct u as [|x u]; simpl in Hu.
      * now left.
      * injection Hu as -> ->. right. split; [exact Ht | now exists u].
Qed.

Lemma in_tails_self (s : str) : s <> [] -> In s (tails s).
Proof. intros H. apply in_tails. split; [exact H | now exists []]. Qed.

Lemma in_tails_app (t u s : str) : In t (tails s) -> In t (tails (u ++ s)).
Proof.
  rewrite !in_tails. intros [Ht [k ->]]. split; [exact Ht |].
  exists (u ++ k). now rewrite app_assoc.
Qed.

Lemma in_tails_drop (t s : str) (n : nat) :
  In t (tails (drop n s)) -> In t (tails s).
Proof.
  intros H. rewrite <- (take_drop n s). now apply in_tails_app.
Qed.

(** What [clash m w = false] rules out. *)
Lemma clash_false_l (m w t : str) :
  clash m w = false -> In t (tails m) -> comparable t w = false.
Proof.
  unfold clash. intros H Ht. apply orb_false_iff in H as [H _].
  destruct (comparable t w) eqn:E; [| reflexivity].
  assert (existsb (fun t => comparable t w) (tails m) = true) as H'
    by (apply existsb_exists; now exists t).
  congruence.
Qed.

Lemma clash_false_r (m w t : str) :
  clash m w = false -> In t (tails w) -> comparable t m = false.
Proof.
  unfold clash. intros H Ht. apply orb_false_iff in H as [_ H].
  destruct (comparable t m) eqn:E; [| reflexivity].
  assert (existsb (fun t => comparable t m) (tails w) = true) as H'
    by (apply existsb_exists; now exists t).
  congruence.
Qed.

Lemma clash_self (m : str) : m <> [] -> clash m m = true.
Proof.
  intros H. destruct (clash m m) eqn:E; [reflexivity |].
  pose proof (clash_false_l _ _ _ E (in_tails_self _ H)) as C.
  unfold comparable in C. now rewrite starts_with_refl in C.
Qed.

Lemma border_free_spec (m q a : str) :
  border_free m = true -> a <> [] -> q <> [] -> m = a ++ q ->
  starts_with q m = false.
Proof.
  intros H Ha Hq ->. destruct a as [|c a]; [now contradiction Ha |].
  simpl in H. rewrite forallb_forall in H.
  specialize (H q). rewrite negb_true_iff in H. apply H.
  apply in_tails. split; [exact Hq | now exists a].
Qed.

Lemma border_free_nonempty (m : str) : border_free m = true -> m <> [].
Proof. destruct m; [discriminate | discriminate]. Qed.

(** *** Occurrences *)

Lemma occurs_spec (m s : str) :
  occurs m s = true <-> exists u v, s = u ++ m ++ v.
Proof.
  induction s as [|c s IH]; simpl.
  - rewrite orb_false_r. split.
    + intros H. apply starts_with_nil_r in H as ->. now exists [], [].
    + intros (u & v & H). symmetry in H.
      apply app_eq_nil in H as [_ H]. apply app_eq_nil in H as [-> _].
      reflexivity.
  - rewrite orb_true_iff, IH, starts_with_spec. split.
    + intros [[k Hk] | (u & v & ->)].
      * now exists [], k.
      * now exists (c :: u), v.
    + intros (u & v & H). destruct u as [|x u]; simpl in H.
      * left. now exists v.
      * injection H as -> ->. right. now exists u, v.
Qed.

Lemma occurs_nil (m : str) : m <> [] -> occurs m [] = false.
Proof. destruct m; [congruence | reflexivity]. Qed.

Lemma occurs_false_nonempty (m s : str) : occurs m s = false -> m <> [].
Proof. intros H ->. destruct s; discriminate. Qed.

Lemma occurs_false_head (m s : str) :
  occurs m s = false -> starts_with m s = false.
Proof. destruct s; simpl; intros H; now apply orb_false_iff in H as [H _]. Qed.

Lemma occurs_false_cons (m : str) (c : N) (s : str) :
  occurs m (c :: s) = false -> occurs m s = false.
Proof. simpl. intros H. now apply orb_false_iff in H as [_ H]. Qed.

Lemma occurs_false_app (m a b : str) :
  occurs m (a ++ b) = false -> occurs m a = false /\ occurs m b = false.
Proof.
  intros H. split.
  - destruct (occurs m a) eqn:E; [| reflexivity].
    apply occurs_spec in E as (u & v & ->).
    assert (occurs m ((u ++ m ++ v) ++ b) = true) as H'.
    { apply occurs_spec. exists u, (v ++ b). now rewrite <- !app_assoc. }
    congruence.
  - destruct (occurs m b) eqn:E; [| reflexivity].
    apply occurs_spec in E as (u & v & ->).
    assert (occurs m (a ++ u ++ m ++ v) = true) as H'.
    { apply occurs_spec. exists (a ++ u), v. now rewrite <- !app_assoc. }
    congruence.
Qed.

Lemma occurs_false_drop (m s : str) (n : nat) :
  occurs m s = false -> occurs m (drop n s) = false.
Proof.
  intros H. rewrite <- (take_drop n s) in H.
  now apply occurs_false_app in H as [_ H].
Qed.

Lemma occurrences_zero (m s : str) :
  occurrences m s = 0 <-> occurs m s = false.
Proof.
  induction s as [|c s IH]; simpl.
  - destruct (starts_with m []); simpl; split; (discriminate || reflexivity).
  - destruct (starts_with m (c :: s)); simpl.
    + split; discriminate.
    + exact IH.
Qed.

Lemma occurrences_app (m a b : str) :
  m <> [] ->
  occurrences m a + occurrences m b <= occurrences m (a ++ b).
Proof.
  intros Hm. induction a as [|c a IH].
  - destruct m as [|x m]; [congruence | simpl; lia].
  - change ((c :: a) ++ b) with (c :: (a ++ b)).
    cbn [occurrences].
    destruct (starts_with m (c :: a)) eqn:E.
    + change (c :: (a ++ b)) with ((c :: a) ++ b).
      rewrite (starts_with_app_l _ _ b E). lia.
    + destruct (starts_with m (c :: a ++ b)); lia.
Qed.

Lemma occurrences_self (m : str) : 1 <= occurrences m m.
Proof.
  destruct m as [|c m]; [simpl; lia |].
  cbn [occurrences]. rewrite starts_with_refl. lia.
Qed.

(** A single occurrence: none before it and none behind it. *)
Lemma occurrences_one (m u v : str) :
  m <> [] ->
  occurrences m (u ++ m ++ v) = 1 ->
  occurs m u = false /\ occurs m v = false.
Proof.
  intros Hm H.
  pose proof (occurrences_app m u (m ++ v) Hm) as H1.
  pose proof (occurrences_app m m v Hm) as H2.
  pose proof (occurrences_self m) as H3.
  rewrite <- !occurrences_zero. lia.
Qed.

End TextFacts.

(** ** Facts about [str.replace] *)

Module ReplaceFacts.

Import TextFacts.

Lemma replace_from_skip (old new : str) (k : nat) (s : str) :
  replace_from old new k s = replace_from old new 0 (drop k s).
Proof.
  revert k. induction s as [|c s IH]; intros k.
  - now destruct k.
  - destruct k as [|k]; [reflexivity |]. simpl. apply IH.
Qed.

(** The three equations of the scan; [replace] is not unfolded after them. *)
Lemma replace_nil (old new : str) : old <> [] -> replace old new [] = [].
Proof. destruct old; [congruence | reflexivity]. Qed.

Lemma replace_match (old new s : str) :
  old <> [] -> starts_with old s = true ->
  replace old new s = new ++ replace old new (drop (length old) s).
Proof.
  intros Hold H. destruct old as [|a old]; [congruence |].
  destruct s as [|c s]; [discriminate |].
  unfold replace. cbn [replace_from]. rewrite H.
  rewrite replace_from_skip. simpl. now rewrite Nat.sub_0_r.
Qed.

Lemma replace_miss (old new : str) (c : N) (s : str) :
  old <> [] -> starts_with old (c :: s) = false ->
  replace old new (c :: s) = c :: replace old new s.
Proof.
  intros Hold H. destruct old as [|a old]; [congruence |].
  unfold replace. cbn [replace_from]. now rewrite H.
Qed.

(** Induction along the scan. *)
Lemma scan_ind (old : str) (P : str -> Prop) :
  old <> [] ->
  P [] ->
  (forall s, starts_with old s = true -> P (drop (length old) s) -> P s) ->
  (forall c s, starts_with old (c :: s) = false -> P s -> P (c :: s)) ->
  forall s, P s.
Proof.
  intros Hold Hnil Hhit Hmiss s.
  remember (length s) as n eqn:Hn. revert s Hn.
  induction n as [n IH] using lt_wf_ind. intros s ->.
  destruct s as [|c s]; [exact Hnil |].
  destruct (starts_with old (c :: s)) eqn:E.
  - apply Hhit; [exact E |]. eapply IH; [| reflexivity].
    rewrite length_drop. destruct old; [congruence |]. simpl. lia.
  - apply Hmiss; [exact E |]. eapply IH; [| reflexivity]. simpl. lia.
Qed.

(** Where [old] does not occur, nothing is replaced. *)
Lemma replace_absent (old new s : str) :
  occurs old s = false -> replace old new s = s.
Proof.
  intros H. pose proof (occurs_false_nonempty _ _ H) as Hold.
  induction s as [|c s IH]; [now apply replace_nil |].
  rewrite replace_miss by (assumption || now apply occurs_false_head).
  f_equal. apply IH. eapply occurs_false_cons, H.
Qed.

(** The scan of [u ++ rest] is the scan of [u] followed by the scan of
    [rest], when no occurrence that starts in [u] runs over its end. *)
Lemma replace_app (old new u rest : str) :
  old <> [] ->
  (forall t, In t (tails u) ->
             starts_with old (t ++ rest) = true -> starts_with old t = true) ->
  replace old new (u ++ rest) = replace old new u ++ replace old new rest.
Proof.
  intros Hold. revert u.
  apply (scan_ind old (fun u => _ -> replace old new (u ++ rest) = _)); [exact Hold |..].
  - intros _. now rewrite replace_nil.
  - intros s E IH H.
    rewrite (replace_match old new (s ++ rest)), (replace_match old new s)
      by (assumption || now apply starts_with_app_l).
    rewrite drop_app_le by now apply starts_with_length.
    rewrite IH, app_assoc; [reflexivity |].
    intros t Ht. apply H. eapply in_tails_drop, Ht.
  - intros c s E IH H.
    assert (starts_with old ((c :: s) ++ rest) = false) as E'.
    { destruct (starts_with old ((c :: s) ++ rest)) eqn:E'; [| reflexivity].
      rewrite H in E; [discriminate | | exact E'].
      apply in_tails_self. discriminate. }
    simpl in *. rewrite !replace_miss by assumption.
    rewrite IH; [reflexivity |]. intros t Ht. apply H. now right.
Qed.

(** A stretch [w] in which no occurrence starts is copied. *)
Lemma replace_keep (old new w v : str) :
  old <> [] ->
  (forall t, In t (tails w) -> starts_with old (t ++ v) = false) ->
  replace old new (w ++ v) = w ++ replace old new v.
Proof.
  intros Hold. induction w as [|c w IH]; intros H; [reflexivity |].
  simpl. rewrite replace_miss; [| exact Hold |].
  - f_equal. apply IH. intros t Ht. apply H. now right.
  - apply (H (c :: w)). now left.
Qed.

(** Text that no occurrence of [old] can overlap is left in place, and
    the text on either side of it is rewritten as if it stood alone. *)
Lemma replace_frame (old new u w v : str) :
  old <> [] -> clash old w = false ->
  replace old new (u ++ w ++ v) = replace old new u ++ w ++ replace old new v.
Proof.
  intros Hold Hc. rewrite replace_app; [f_equal | exact Hold |].
  - apply replace_keep; [exact Hold |]. intros t Ht.
    destruct (starts_with old (t ++ v)) eqn:E; [| reflexivity].
    apply starts_with_comparable in E. rewrite comparable_sym in E.
    now rewrite (clash_false_r _ _ _ Hc Ht) in E.
  - intros t Ht E.
    destruct (starts_with_app_inv _ _ _ E) as [Hm | (q & Hq & -> & Hr)];
      [exact Hm |].
    apply starts_with_comparable in Hr.
    rewrite (clash_false_l _ w q Hc) in Hr; [discriminate |].
    apply in_tails. split; [exact Hq | now exists t].
Qed.

(** An occurrence of a match that cannot overlap itself is replaced,
    wherever it stands. *)
Lemma replace_hit (old new u v : str) :
  border_free old = true ->
  replace old new (u ++ old ++ v) = replace old new u ++ new ++ replace old new v.
Proof.
  intros Hb. pose proof (border_free_nonempty _ Hb) as Hold.
  rewrite replace_app; [f_equal | exact Hold |].
  - rewrite replace_match by (assumption || apply starts_with_app).
    now rewrite drop_app_length.
  - intros t Ht E.
    destruct (starts_with_app_inv _ _ _ E) as [Hm | (q & Hq & Heq & Hr)];
      [exact Hm |].
    apply in_tails in Ht as [Ht _].
    pose proof (border_free_spec _ _ _ Hb Ht Hq Heq) as Hq'.
    destruct (starts_with_app_inv _ _ _ Hr) as [Hm | (q' & Hq'' & Heq' & _)];
      [congruence |].
    apply (f_equal (@length N)) in Heq, Heq'.
    rewrite !length_app in *. destruct t; [congruence |]. simpl in *. lia.
Qed.

(** A text [t] none of whose suffixes is comparable with [new] can start
    the output only where it starts the input, at a position the scan
    copies. *)
Lemma starts_with_replace (old new : str) :
  old <> [] ->
  forall s t,
    (forall q, In q (tails t) -> comparable q new = false) ->
    starts_with t (replace old new s) = true ->
    starts_with t s = true /\ (t <> [] -> starts_with old s = false).
Proof.
  intros Hold. induction s as [|c s IH]; intros t Hq H.
  - rewrite replace_nil in H by exact Hold. split; [exact H |].
    intros _. destruct old; [congruence | reflexivity].
  - destruct t as [|a t]; [split; [reflexivity | congruence] |].
    destruct (starts_with old (c :: s)) eqn:E.
    + rewrite replace_match in H by assumption.
      apply starts_with_comparable in H.
      rewrite Hq in H; [discriminate | now left].
    + rewrite replace_miss in H by assumption. simpl in H.
      apply andb_true_iff in H as [Hac H].
      destruct (IH t) as [Ht _]; [| exact H |].
      * intros q Hin. apply Hq. now right.
      * split; [| reflexivity]. simpl. now rewrite Hac, Ht.
Qed.

Lemma occurs_behind (m w r : str) :
  (forall t, In t (tails w) -> starts_with m (t ++ r) = false) ->
  occurs m r = false -> occurs m (w ++ r) = false.
Proof.
  intros H Hr. induction w as [|c w IH]; [exact Hr |].
  simpl. apply orb_false_iff. split.
  - apply (H (c :: w)). now left.
  - apply IH. intros t Ht. apply H. now right.
Qed.

(** A match [m] that cannot overlap [new] does not appear through the
    replacement: the output is free of [m] when the input was, and free
    of [old] itself in any case. *)
Lemma replace_avoids (old new m s : str) :
  old <> [] -> clash m new = false ->
  m = old \/ occurs m s = false ->
  occurs m (replace old new s) = false.
Proof.
  intros Hold Hc. revert s.
  apply (scan_ind old (fun s => _ -> occurs m (replace old new s) = false));
    [exact Hold |..].
  - intros [-> | H].
    + rewrite replace_nil by exact Hold. now apply occurs_nil.
    + rewrite replace_nil by exact Hold. exact H.
  - intros s E IH H. rewrite replace_match by assumption.
    apply occurs_behind.
    + intros t Ht. destruct (starts_with m (t ++ _)) eqn:E'; [| reflexivity].
      apply starts_with_comparable in E'. rewrite comparable_sym in E'.
      now rewrite (clash_false_r _ _ _ Hc Ht) in E'.
    + apply IH. destruct H as [-> | H]; [now left | right].
      now apply occurs_false_drop.
  - intros c s E IH H.
    assert (m <> []) as Hm.
    { destruct H as [-> | H]; [exact Hold | eapply occurs_false_nonempty, H]. }
    assert (occurs m (replace old new s) = false) as Hs.
    { apply IH. destruct H as [-> | H]; [now left | right].
      eapply occurs_false_cons, H. }
    destruct (starts_with m (replace old new (c :: s))) eqn:E'.
    + apply starts_with_replace in E' as [E1 E2]; [| exact Hold |].
      * destruct H as [-> | H]; [congruence |].
        apply occurs_false_head in H. congruence.
      * intros q. apply clash_false_l, Hc.
    + rewrite replace_miss in * by assumption.
      change (occurs m (c :: replace old new s))
        with (starts_with m (c :: replace old new s) || occurs m (replace old new s)).
      now rewrite E', Hs.
Qed.

End ReplaceFacts.

(** ** Facts about lines *)

Module LineFacts.

Import TextFacts ReplaceFacts.

Lemma lines_single (l : str) : ~ In LF l -> lines l = [l].
Proof.
  induction l as [|c l IH]; intros H; [reflexivity |].
  simpl. destruct (N.eqb_spec c LF) as [-> | _].
  - exfalso. apply H. now left.
  - rewrite IH; [reflexivity |]. intros Hin. apply H. now right.
Qed.

Lemma lines_app_LF (l s : str) :
  ~ In LF l -> lines (l ++ LF :: s) = l :: lines s.
Proof.
  induction l as [|c l IH]; intros H; [reflexivity |].
  simpl. destruct (N.eqb_spec c LF) as [-> | _].
  - exfalso. apply H. now left.
  - rewrite IH; [reflexivity |]. intros Hin. apply H. now right.
Qed.

(** A text is one line, or a first line, a line feed and the rest. *)
Lemma first_line (s : str) :
  ~ In LF s \/ exists l s', s = l ++ LF :: s' /\ ~ In LF l.
Proof.
  induction s as [|c s IH]; [left; intros [] |].
  destruct (N.eq_dec c LF) as [-> | Hc].
  - right. exists [], s. split; [reflexivity | intros []].
  - destruct IH as [H | (l & s' & -> & H)].
    + left. intros [E | Hin]; [now apply Hc | now apply H].
    + right. exists (c :: l), s'. split; [reflexivity |].
      intros [E | Hin]; [now apply Hc | now apply H].
Qed.

Lemma lines_ind (P : str -> Prop) :
  (forall l, ~ In LF l -> P l) ->
  (forall l s, ~ In LF l -> P s -> P (l ++ LF :: s)) ->
  forall s, P s.
Proof.
  intros Hone Hmore s.
  remember (length s) as n eqn:Hn. revert s Hn.
  induction n as [n IH] using lt_wf_ind. intros s ->.
  destruct (first_line s) as [H | (l & s' & -> & H)]; [now apply Hone |].
  apply Hmore; [exact H |]. eapply IH; [| reflexivity].
  rewrite length_app. simpl. lia.
Qed.

Lemma unlines_lines (s : str) : unlines (lines s) = s.
Proof.
  induction s as [|c s IH]; [reflexivity |].
  simpl. destruct (N.eqb_spec c LF) as [-> | _].
  - simpl. destruct (lines s) eqn:E; [now destruct s | now rewrite IH].
  - destruct (lines s) as [|l [|l' ls]] eqn:E; simpl in *; now rewrite <- IH.
Qed.

(** A character that is not in [m] cannot overlap [m]. *)
Lemma clash_char (m : str) (c : N) :
  m <> [] -> ~ In c m -> clash m [c] = false.
Proof.
  intros Hm Hc.
  assert (forall t, (exists u, m = u ++ t) -> t <> [] -> comparable t [c] = false) as Ht.
  { intros [|x t] [u ->] Hne; [congruence |].
    unfold comparable. simpl. rewrite !andb_true_r.
    destruct (N.eqb_spec x c) as [-> | Hx].
    - exfalso. apply Hc. apply in_or_app. right. now left.
    - rewrite orb_false_l. destruct (N.eqb_spec c x) as [-> | _]; [congruence | reflexivity]. }
  unfold clash. apply orb_false_iff. split.
  - destruct (existsb _ (tails m)) eqn:E; [| reflexivity].
    apply existsb_exists in E as (t & Hin & E).
    apply in_tails in Hin as [Hne Hu]. now rewrite Ht in E.
  - simpl. rewrite orb_false_r, comparable_sym.
    apply Ht; [now exists [] | exact Hm].
Qed.

Lemma replace_LF_free (old new s : str) :
  old <> [] -> ~ In LF new -> ~ In LF s -> ~ In LF (replace old new s).
Proof.
  intros Hold Hnew. revert s.
  apply (scan_ind old (fun s => ~ In LF s -> ~ In LF (replace old new s)));
    [exact Hold |..].
  - now rewrite replace_nil.
  - intros s E IH H. rewrite replace_match by assumption.
    intros Hin. apply in_app_or in Hin as [Hin | Hin]; [now apply Hnew |].
    revert Hin. apply IH. intros Hin. apply H.
    rewrite <- (take_drop (length old) s). apply in_or_app. now right.
  - intros c s E IH H. rewrite replace_miss by assumption.
    intros [-> | Hin]; [apply H; now left |].
    revert Hin. apply IH. intros Hin. apply H. now right.
Qed.

(** A replacement without line feeds on either side works line by line. *)
Lemma lines_replace (old new s : str) :
  old <> [] -> ~ In LF old -> ~ In LF new ->
  lines (replace old new s) = List.map (replace old new) (lines s).
Proof.
  intros Hold Ho Hn. revert s. apply lines_ind.
  - intros l Hl. rewrite (lines_single l Hl). simpl.
    apply lines_single. now apply replace_LF_free.
  - intros l s Hl IH.
    change (l ++ LF :: s) with (l ++ [LF] ++ s).
    rewrite replace_frame by (assumption || now apply clash_char).
    simpl. rewrite !lines_app_LF by (assumption || now apply replace_LF_free).
    simpl. now rewrite IH.
Qed.

End LineFacts.

(** ** Facts about the pattern fragment *)

Module ReFacts.

Import TextFacts ReplaceFacts.

Lemma strip_spec (p s : str) :
  Re.strip p s = if starts_with p s then Some (drop (length p) s) else None.
Proof.
  revert s. induction p as [|a p IH]; intros s; [reflexivity |].
  destruct s as [|b s]; [reflexivity |]. simpl.
  destruct (N.eqb a b); [apply IH | reflexivity].
Qed.

Lemma starts_with_app_split (a b s : str) :
  starts_with (a ++ b) s = starts_with a s && starts_with b (drop (length a) s).
Proof.
  revert s. induction a as [|x a IH]; intros s; [reflexivity |].
  destruct s as [|y s]; [reflexivity |]. simpl.
  rewrite IH. now rewrite andb_assoc.
Qed.

(** A pattern of the fragment matches exactly its text. *)
Lemma match_at_text (r : Re.regex) (s : str) :
  Re.match_at r s =
  if starts_with (Re.text r) s
  then Some (Re.groups r, length (Re.text r)) else None.
Proof.
  revert s. induction r as [|[c | body] r IH]; intros s.
  - reflexivity.
  - destruct s as [|b s]; [reflexivity |]. simpl.
    destruct (N.eqb c b); [| reflexivity]. rewrite IH.
    now destruct (starts_with (Re.text r) s).
  - simpl. rewrite strip_spec, starts_with_app_split.
    destruct (starts_with body s); [| reflexivity]. rewrite IH.
    simpl. destruct (starts_with (Re.text r) _); [| reflexivity].
    now rewrite length_app.
Qed.

Lemma search_occurs (r : Re.regex) (s : str) :
  Re.search r s = occurs (Re.text r) s.
Proof.
  induction s as [|c s IH]; simpl; rewrite match_at_text.
  - now destruct (starts_with _ []).
  - now destruct (starts_with _ (c :: s)).
Qed.

Lemma sub_from_replace_from (r : Re.regex) (t : Re.template) (k : nat) (s : str) :
  Re.sub_from r t k s =
  replace_from (Re.text r) (Re.expand t (Re.groups r)) k s.
Proof.
  revert k. induction s as [|c s IH]; intros k; [reflexivity |].
  destruct k as [|k]; simpl; [| apply IH].
  rewrite match_at_text.
  destruct (starts_with (Re.text r) (c :: s)); now rewrite IH.
Qed.

(** [re.sub] with a pattern of the fragment is [str.replace] of the
    pattern's text by the expanded template. *)
Lemma sub_replace (r : Re.regex) (t : Re.template) (s : str) :
  Re.text r <> [] ->
  Re.sub r t s = replace (Re.text r) (Re.expand t (Re.groups r)) s.
Proof.
  intros H. unfold Re.sub, replace. rewrite sub_from_replace_from.
  destruct (Re.text r); [congruence | reflexivity].
Qed.

End ReFacts.

(** ** Facts about lists of rules *)

Module RuleFacts.

Import TextFacts ReplaceFacts.

Lemma clash_sym (a b : str) : clash a b = clash b a.
Proof. unfold clash. apply orb_comm. Qed.

Lemma run_rules_app (rs1 rs2 : list rule) (s : str) :
  run_rules (rs1 ++ rs2) s = run_rules rs2 (run_rules rs1 s).
Proof. apply fold_left_app. Qed.

Lemma run_rules_cons (r : rule) (rs : list rule) (s : str) :
  run_rules (r :: rs) s = run_rules rs (apply_rule r s).
Proof. reflexivity. Qed.

(** Rules without a match in the text change nothing. *)
Lemma run_rules_absent (rs : list rule) (s : str) :
  (forall r, In r rs -> occurs (rmatch r) s = false) ->
  run_rules rs s = s.
Proof.
  induction rs as [|r rs IH]; intros H; [reflexivity |].
  rewrite run_rules_cons. unfold apply_rule.
  rewrite replace_absent by (apply H; now left).
  apply IH. intros r' Hr'. apply H. now right.
Qed.

(** A match that no replacement can overlap is not brought about. *)
Lemma run_rules_avoids (rs : list rule) (m s : str) :
  (forall r, In r rs -> rmatch r <> [] /\ clash m (rrepl r) = false) ->
  occurs m s = false ->
  occurs m (run_rules rs s) = false.
Proof.
  revert s. induction rs as [|r rs IH]; intros s H Hs; [exact Hs |].
  rewrite run_rules_cons. apply IH.
  - intros r' Hr'. apply H. now right.
  - destruct (H r) as [Hne Hc]; [now left |].
    unfold apply_rule. apply replace_avoids; [exact Hne | exact Hc | now right].
Qed.

(** Text that no match can overlap stays, and splits the work. *)
Lemma run_rules_frame (rs : list rule) (u w v : str) :
  (forall r, In r rs -> rmatch r <> [] /\ clash (rmatch r) w = false) ->
  run_rules rs (u ++ w ++ v) = run_rules rs u ++ w ++ run_rules rs v.
Proof.
  revert u v. induction rs as [|r rs IH]; intros u v H; [reflexivity |].
  rewrite !run_rules_cons. unfold apply_rule.
  destruct (H r) as [Hne Hc]; [now left |].
  rewrite replace_frame by assumption.
  apply IH. intros r' Hr'. apply H. now right.
Qed.

(** Reading the decidable checks. *)

Lemma earlier_later_split (P : rule -> rule -> bool) (pre post : list rule) (r : rule) :
  earlier_later P (pre ++ r :: post) = true ->
  (forall a, In a pre -> P a r = true) /\ (forall b, In b post -> P r b = true).
Proof.
  induction pre as [|x pre IH]; simpl; intros H;
    apply andb_true_iff in H as [Hx H].
  - split; [intros a [] |]. intros b Hb.
    rewrite forallb_forall in Hx. now apply Hx.
  - destruct (IH H) as [H1 H2]. split; [| exact H2].
    intros a [<- | Ha]; [| now apply H1].
    rewrite forallb_forall in Hx. apply Hx. apply in_or_app. right. now left.
Qed.


Lemma repl_independent_in (rs : list rule) (a b : rule) :
  repl_independent rs = true -> In a rs -> In b rs ->
  clash (rmatch a) (rrepl b) = false.
Proof.
  unfold repl_independent. rewrite forallb_forall. intros H Ha Hb.
  specialize (H a Ha). rewrite forallb_forall in H.
  apply negb_true_iff. now apply H.
Qed.

Lemma match_independent_border (rs : list rule) (r : rule) :
  match_independent rs = true -> In r rs -> border_free (rmatch r) = true.
Proof.
  unfold match_independent. intros H Hr. apply andb_true_iff in H as [_ H].
  rewrite forallb_forall in H. now apply H.
Qed.

Lemma match_independent_nonempty (rs : list rule) (r : rule) :
  match_independent rs = true -> In r rs -> rmatch r <> [].
Proof.
  intros H Hr. eapply border_free_nonempty, match_independent_border; eassumption.
Qed.

(** Around a rule [r] of an independent list: the matches of the other
    rules cannot overlap the match of [r], and the other rules differ
    from [r]. *)
Lemma match_independent_split (pre post : list rule) (r : rule) :
  match_independent (pre ++ r :: post) = true ->
  forall a, In a pre \/ In a post ->
            clash (rmatch a) (rmatch r) = false /\ a <> r.
Proof.
  intros H a Ha.
  assert (rmatch r <> []) as Hne.
  { apply (match_independent_nonempty _ _ H). apply in_or_app. right. now left. }
  unfold match_independent in H. apply andb_true_iff in H as [H _].
  apply earlier_later_split in H as [H1 H2].
  assert (clash (rmatch a) (rmatch r) = false) as Hc.
  { destruct Ha as [Ha | Ha].
    - apply negb_true_iff. now apply H1.
    - rewrite clash_sym. apply negb_true_iff. now apply H2. }
  split; [exact Hc |]. intros ->. now rewrite clash_self in Hc.
Qed.

(** *** Independent lists of rules *)

Section Independent.

Variable rs : list rule.
Hypothesis Hrepl : repl_independent rs = true.
Hypothesis Hmatch : match_independent rs = true.

(** After the run no match of any rule is left. *)
Lemma run_rules_clean (r : rule) (s : str) :
  In r rs -> occurs (rmatch r) (run_rules rs s) = false.
Proof using Hrepl Hmatch.
  intros Hr. destruct (in_split _ _ Hr) as (pre & post & E).
  rewrite E, run_rules_app, run_rules_cons.
  apply run_rules_avoids.
  - intros b Hb.
    assert (In b rs) as Hb' by (rewrite E; apply in_or_app; right; now right).
    split; [now apply (match_independent_nonempty rs) |].
    now apply repl_independent_in with rs.
  - unfold apply_rule. apply replace_avoids.
    + now apply (match_independent_nonempty rs).
    + now apply repl_independent_in with rs.
    + now left.
Qed.

(** A second run changes nothing. *)
Lemma run_rules_idempotent (s : str) :
  run_rules rs (run_rules rs s) = run_rules rs s.
Proof using Hrepl Hmatch.
  apply run_rules_absent. intros r Hr. now apply run_rules_clean.
Qed.

(** Every occurrence of a match is rewritten to its replacement, and the
    text on either side is patched as if it stood alone. *)
Lemma run_rules_hit (r : rule) (u v : str) :
  In r rs ->
  run_rules rs (u ++ rmatch r ++ v) =
  run_rules rs u ++ rrepl r ++ run_rules rs v.
Proof using Hrepl Hmatch.
  intros Hr. destruct (in_split _ _ Hr) as (pre & post & E).
  pose proof Hmatch as Hsplit. rewrite E in Hsplit.
  pose proof (match_independent_split _ _ _ Hsplit) as Hother.
  assert (forall a, In a pre \/ In a post -> In a rs) as Hin.
  { intros a Ha. rewrite E. apply in_or_app.
    destruct Ha; [now left | right; now right]. }
  rewrite E, !run_rules_app, !run_rules_cons.
  rewrite run_rules_frame.
  - unfold apply_rule at 1.
    rewrite replace_hit by (now apply (match_independent_border rs)).
    rewrite run_rules_frame; [reflexivity |].
    intros b Hb. split.
    + apply (match_independent_nonempty rs); auto.
    + apply repl_independent_in with rs; auto.
  - intros a Ha. split.
    + apply (match_independent_nonempty rs); auto.
    + now apply Hother; left.
Qed.

(** When only [r] has a match in the text, the run is the step of [r]. *)
Lemma run_rules_only (r : rule) (d : str) :
  In r rs ->
  (forall r', In r' rs -> r' <> r -> occurs (rmatch r') d = false) ->
  run_rules rs d = apply_rule r d.
Proof using Hrepl Hmatch.
  intros Hr Honly. destruct (in_split _ _ Hr) as (pre & post & E).
  pose proof Hmatch as Hsplit. rewrite E in Hsplit.
  pose proof (match_independent_split _ _ _ Hsplit) as Hother.
  assert (forall a, In a pre \/ In a post -> In a rs) as Hin.
  { intros a Ha. rewrite E. apply in_or_app.
    destruct Ha; [now left | right; now right]. }
  rewrite E, run_rules_app, run_rules_cons.
  rewrite (run_rules_absent pre).
  - apply run_rules_absent. intros b Hb. unfold apply_rule.
    apply replace_avoids.
    + now apply (match_independent_nonempty rs).
    + apply repl_independent_in with rs; auto.
    + right. apply Honly; [auto | now apply Hother; right].
  - intros a Ha. apply Honly; [auto | now apply Hother; left].
Qed.

(** A rule without a match in the input has none when its turn comes. *)
Lemma run_rules_turn (i : nat) (r : rule) (d : str) :
  rs !! i = Some r -> occurs (rmatch r) d = false ->
  occurs (rmatch r) (run_rules (take i rs) d) = false.
Proof using Hrepl Hmatch.
  intros Hi Hd.
  assert (In r rs) as Hr
    by (apply list_elem_of_In; eapply list_elem_of_lookup_2, Hi).
  apply run_rules_avoids; [| exact Hd].
  intros a Ha.
  assert (In a rs) as Ha'.
  { rewrite <- (take_drop i rs). apply in_or_app. now left. }
  split; [now apply (match_independent_nonempty rs) |].
  now apply repl_independent_in with rs.
Qed.

End Independent.

(** *** The table of the script *)

Lemma rules_repl_independent : repl_independent all_rules = true.
Proof. vm_compute. reflexivity. Qed.

Lemma rules_match_independent : match_independent all_rules = true.
Proof. vm_compute. reflexivity. Qed.


Lemma literal_in_all (r : rule) : In r literal_rules -> In r all_rules.
Proof. intros H. apply in_or_app. now left. Qed.

(** The pattern rule is the literal rule [calendar]. *)
Lemma calendar_as_literal (s : str) :
  Re.sub calendar_pattern calendar_template s = apply_rule calendar s.
Proof.
  rewrite ReFacts.sub_replace by (vm_compute; discriminate).
  reflexivity.
Qed.

Lemma calendar_search (s : str) :
  Re.search calendar_pattern s = occurs (rmatch calendar) s.
Proof. apply ReFacts.search_occurs. Qed.

(** The transformation is the run of the sixteen rules in order. *)
Lemma patch_run_rules (d : str) : patch d = run_rules all_rules d.
Proof. unfold patch. rewrite calendar_as_literal. reflexivity. Qed.

Lemma patch_absent (d : str) :
  (forall r, In r all_rules -> occurs (rmatch r) d = false) -> patch d = d.
Proof. rewrite patch_run_rules. apply run_rules_absent. Qed.

Lemma patch_hit (r : rule) (u v : str) :
  In r all_rules ->
  patch (u ++ rmatch r ++ v) = patch u ++ rrepl r ++ patch v.
Proof.
  rewrite !patch_run_rules.
  apply run_rules_hit; [apply rules_repl_independent | apply rules_match_independent].
Qed.

Lemma patch_only (r : rule) (d : str) :
  In r all_rules -> only_rule r d -> patch d = apply_rule r d.
Proof.
  rewrite patch_run_rules.
  apply run_rules_only; [apply rules_repl_independent | apply rules_match_independent].
Qed.

End RuleFacts.

(** ** Decidable checks *)

Module CheckFacts.

Lemma str_eqb_eq (a b : str) : str_eqb a b = true <-> a = b.
Proof.
  revert b. induction a as [|x a IH]; intros [|y b]; simpl;
    try (split; [discriminate | congruence]); [tauto |].
  rewrite andb_true_iff, N.eqb_eq, IH. split.
  - now intros [-> ->].
  - intros E. now injection E.
Qed.

Lemma rule_eqb_eq (a b : rule) : rule_eqb a b = true <-> a = b.
Proof.
  unfold rule_eqb. rewrite andb_true_iff, !str_eqb_eq.
  destruct a, b; simpl. split.
  - now intros [-> ->].
  - intros E. now injection E.
Qed.

Lemma rule_eq_dec (a b : rule) : {a = b} + {a <> b}.
Proof.
  destruct (rule_eqb a b) eqn:E.
  - left. now apply rule_eqb_eq.
  - right. intros H. apply rule_eqb_eq in H. congruence.
Qed.

Lemma only_rule_check (r : rule) (d : str) :
  only_ruleb r d = true <-> only_rule r d.
Proof.
  unfold only_ruleb, only_rule. rewrite forallb_forall. split.
  - intros H r' Hin Hne. specialize (H r' Hin).
    apply orb_true_iff in H as [H | H].
    + now apply rule_eqb_eq in H.
    + now apply negb_true_iff.
  - intros H r' Hin. destruct (rule_eq_dec r' r) as [-> | Hne].
    + apply orb_true_iff. left. now apply rule_eqb_eq.
    + rewrite (H r' Hin Hne). apply orb_true_r.
Qed.

Lemma in_rules_check (r : rule) (rs : list rule) :
  In r rs <-> existsb (rule_eqb r) rs = true.
Proof.
  rewrite existsb_exists. split.
  - intros H. exists r. split; [exact H | now apply rule_eqb_eq].
  - intros (r' & H & E). apply rule_eqb_eq in E. now subst.
Qed.

Lemma not_in_check (c : N) (l : str) :
  existsb (N.eqb c) l = false -> ~ In c l.
Proof.
  intros H Hin.
  assert (existsb (N.eqb c) l = true) as H'
    by (apply existsb_exists; exists c; split; [exact Hin | apply N.eqb_refl]).
  congruence.
Qed.

Lemma Forall2_map_self {A B : Type} (R : A -> B -> Prop) (f : A -> B) (l : list A) :
  (forall x, In x l -> R x (f x)) -> Forall2 R l (List.map f l).
Proof.
  induction l as [|x l IH]; intros H; simpl; constructor.
  - apply H. now left.
  - apply IH. intros y Hy. apply H. now right.
Qed.

End CheckFacts.

(** ** The transformation *)

Import TextFacts ReplaceFacts LineFacts RuleFacts CheckFacts.

(** C1. Running the content transformation twice gives what running it
    once gives: [patch (patch d) = patch d] for every text [d], where
    [patch] is the fifteen literal replacements in order followed by the
    regular-expression replacement. *)
Theorem patch_idempotent (d : str) : patch (patch d) = patch d.
Proof.
  rewrite !patch_run_rules.
  apply run_rules_idempotent;
    [apply rules_repl_independent | apply rules_match_independent].
Qed.

(** C2, as stated, fails: in a document of two lines, the first one the DJ
    alert and the second one the same alert behind [else], no other rule
    has a match, and yet the second line, which is not the line
    [alert('Please select a DJ first.');], comes out changed. *)
Lemma dj_line_scenario_fails : ~ Stated.dj_line_scenario Stated.two_dj_lines.
Proof.
  intros H.
  assert (In (rmatch select_dj) (lines Stated.two_dj_lines)) as H1
    by (vm_compute; now left).
  assert (only_rule select_dj Stated.two_dj_lines) as H2
    by (apply only_rule_check; vm_compute; reflexivity).
  specialize (H H1 H2). vm_compute in H.
  inversion H as [| l l' ls ls' _ Hrest]; subst.
  inversion Hrest as [| l2 l2' ls2 ls2' [_ Hsame] _]; subst.
  discriminate Hsame. discriminate.
Qed.

(** C2, amended.  When no other rule has a match in the document, the
    output has the lines of the input, each rewritten by the DJ rule alone:
    line by line, the output is [str.replace] of
    [alert('Please select a DJ first.');] by
    [await showAlert('Please select a DJ first.', 'Selection Required');]
    applied to the input line.  So a line that reads the alert reads the
    [showAlert] call afterwards, a line in which the alert does not occur
    is identical to the input line, and a line that holds the alert next to
    other text has that occurrence rewritten, the text before and behind it
    being treated in the same way. *)
Theorem dj_line_rewritten (d : str) :
  only_rule select_dj d ->
  lines (patch d) =
  List.map (replace (lit "alert('Please select a DJ first.');")
                    (lit "await showAlert('Please select a DJ first.', 'Selection Required');"))
           (lines d) /\
  Forall2 (fun l l' =>
             (l = lit "alert('Please select a DJ first.');" ->
              l' = lit "await showAlert('Please select a DJ first.', 'Selection Required');") /\
             (occurs (lit "alert('Please select a DJ first.');") l = false -> l' = l) /\
             (forall a b,
                l = a ++ lit "alert('Please select a DJ first.');" ++ b ->
                l' = replace (lit "alert('Please select a DJ first.');")
                             (lit "await showAlert('Please select a DJ first.', 'Selection Required');") a
                     ++ lit "await showAlert('Please select a DJ first.', 'Selection Required');"
                     ++ replace (lit "alert('Please select a DJ first.');")
                                (lit "await showAlert('Please select a DJ first.', 'Selection Required');") b))
          (lines d) (lines (patch d)).
Proof.
  intros Honly.
  assert (lines (patch d) = List.map (apply_rule select_dj) (lines d)) as H.
  { rewrite (patch_only select_dj) by (assumption || (vm_compute; tauto)).
    unfold apply_rule. apply lines_replace.
    - vm_compute. discriminate.
    - apply not_in_check. vm_compute. reflexivity.
    - apply not_in_check. vm_compute. reflexivity. }
  split; [exact H |]. rewrite H.
  apply Forall2_map_self. intros l _. unfold apply_rule. repeat split.
  - intros ->. vm_compute. reflexivity.
  - apply replace_absent.
  - intros a b ->. apply (replace_hit (rmatch select_dj)).
    vm_compute. reflexivity.
Qed.

Lemma dj_line_rewritten_witness :
  let d := lit "if (!dj) {" ++ LF :: lit "  alert('Please select a DJ first.'); return;"
               ++ LF :: lit "}" in
  only_rule select_dj d /\
  lines (patch d) =
  List.map (replace (lit "alert('Please select a DJ first.');")
                    (lit "await showAlert('Please select a DJ first.', 'Selection Required');"))
           (lines d).
Proof.
  intros d.
  assert (only_rule select_dj d) as Honly
    by (apply only_rule_check; vm_compute; reflexivity).
  split; [exact Honly | exact (proj1 (dj_line_rewritten d Honly))].
Defined.

(** C3, as stated, fails: a document whose first line is the login alert
    of the first rule and whose second line is the only occurrence of the
    DJ alert comes out with both lines rewritten, so a region other than
    the occurrence has changed. *)
Lemma single_occurrence_fails :
  In select_dj literal_rules /\
  ~ Stated.single_occurrence select_dj Stated.login_line [].
Proof.
  split; [vm_compute; tauto |].
  intros H. assert (occurrences (rmatch select_dj)
                      (Stated.login_line ++ rmatch select_dj ++ []) = 1) as H1
    by (vm_compute; reflexivity).
  specialize (H H1). vm_compute in H. discriminate H.
Qed.

(** C3, amended.  For every literal rule [r] and every document with
    exactly one occurrence of its match and no match of any other rule, the
    output is the input with that occurrence replaced by the rule's
    replacement; the text before and behind it is unchanged. *)
Theorem single_occurrence_replaced (r : rule) (u v : str) :
  In r literal_rules ->
  occurrences (rmatch r) (u ++ rmatch r ++ v) = 1 ->
  only_rule r (u ++ rmatch r ++ v) ->
  patch (u ++ rmatch r ++ v) = u ++ rrepl r ++ v.
Proof.
  intros Hr Hone Honly. apply literal_in_all in Hr.
  pose proof (match_independent_nonempty _ _ rules_match_independent Hr) as Hne.
  destruct (occurrences_one _ _ _ Hne Hone) as [Hu Hv].
  assert (forall s, occurs (rmatch r) s = false ->
                    (forall r', r' <> r -> In r' all_rules -> occurs (rmatch r') s = false) ->
                    patch s = s) as Hkeep.
  { intros s Hs Hothers. apply patch_absent. intros r' Hr'.
    destruct (rule_eq_dec r' r) as [-> | Hneq]; [exact Hs | now apply Hothers]. }
  rewrite patch_hit by exact Hr. rewrite !Hkeep; try assumption; try reflexivity.
  - intros r' Hneq Hr'. specialize (Honly r' Hr' Hneq).
    apply occurs_false_app in Honly as [_ Honly].
    now apply occurs_false_app in Honly as [_ Honly].
  - intros r' Hneq Hr'. specialize (Honly r' Hr' Hneq).
    now apply occurs_false_app in Honly as [Honly _].
Qed.

Lemma single_occurrence_replaced_witness :
  let u := lit "if (!dj) { " in
  let v := lit " return; }" in
  In select_dj literal_rules /\
  occurrences (rmatch select_dj) (u ++ rmatch select_dj ++ v) = 1 /\
  only_rule select_dj (u ++ rmatch select_dj ++ v) /\
  patch (u ++ rmatch select_dj ++ v) = u ++ rrepl select_dj ++ v.
Proof.
  intros u v.
  assert (In select_dj literal_rules) as H1 by (vm_compute; tauto).
  assert (occurrences (rmatch select_dj) (u ++ rmatch select_dj ++ v) = 1) as H2
    by (vm_compute; reflexivity).
  assert (only_rule select_dj (u ++ rmatch select_dj ++ v)) as H3
    by (apply only_rule_check; vm_compute; reflexivity).
  split; [exact H1 |]. split; [exact H2 |]. split; [exact H3 |].
  exact (single_occurrence_replaced select_dj u v H1 H2 H3).
Defined.

(** C4. For every literal rule, on a document without an occurrence of its
    match the rule's replacement is the identity; and in a run of the
    patcher on such a document the text that reaches the rule's step is
    still free of the match, so the step changes nothing.  The step is a
    total function: nothing is raised. *)
Theorem literal_rule_noop (i : nat) (r : rule) (d : str) :
  literal_rules !! i = Some r ->
  occurs (rmatch r) d = false ->
  apply_rule r d = d /\
  occurs (rmatch r) (run_rules (take i literal_rules) d) = false /\
  apply_rule r (run_rules (take i literal_rules) d) =
  run_rules (take i literal_rules) d.
Proof.
  intros Hi Hd.
  assert (occurs (rmatch r) (run_rules (take i literal_rules) d) = false) as Hturn.
  { pose proof (lookup_lt_Some _ _ _ Hi) as Hlt.
    replace (take i literal_rules) with (take i all_rules)
      by (unfold all_rules; apply take_app_le; lia).
    apply run_rules_turn;
      [apply rules_repl_independent | apply rules_match_independent | | exact Hd].
    unfold all_rules. now apply lookup_app_l_Some. }
  repeat split; [| exact Hturn |]; now apply replace_absent.
Qed.

Lemma literal_rule_noop_witness :
  let d := lit "alert('Please log in to continue booking'); console.log('x');" in
  literal_rules !! 2 = Some select_dj /\
  occurs (rmatch select_dj) d = false /\
  apply_rule select_dj d = d /\
  occurs (rmatch select_dj) (run_rules (take 2 literal_rules) d) = false /\
  apply_rule select_dj (run_rules (take 2 literal_rules) d) =
  run_rules (take 2 literal_rules) d.
Proof.
  intros d.
  assert (literal_rules !! 2 = Some select_dj) as H1 by reflexivity.
  assert (occurs (rmatch select_dj) d = false) as H2 by (vm_compute; reflexivity).
  split; [exact H1 |]. split; [exact H2 |].
  exact (literal_rule_noop 2 select_dj d H1 H2).
Defined.

(** C5. The pattern [(continueToCalendar\(\)) {] matches the text
    [continueToCalendar() {] and nothing else; [re.sub] rewrites every
    occurrence of it to [continueToCalendar() async {], the text on either
    side being treated on its own, and a text without a match is returned
    unchanged. *)
Theorem calendar_rule_rewrites :
  (forall s, Re.search calendar_pattern s = occurs (lit "continueToCalendar() {") s) /\
  (forall u v,
     Re.sub calendar_pattern calendar_template (u ++ lit "continueToCalendar() {" ++ v) =
     Re.sub calendar_pattern calendar_template u
       ++ lit "continueToCalendar() async {"
       ++ Re.sub calendar_pattern calendar_template v) /\
  (forall s, Re.search calendar_pattern s = false ->
             Re.sub calendar_pattern calendar_template s = s).
Proof.
  split; [exact calendar_search |]. split.
  - intros u v. rewrite !calendar_as_literal. unfold apply_rule.
    apply (replace_hit (rmatch calendar)).
    apply (match_independent_border all_rules); [apply rules_match_independent |].
    vm_compute. tauto.
  - intros s H. rewrite calendar_as_literal. unfold apply_rule.
    apply replace_absent. now rewrite <- calendar_search.
Qed.

Lemma calendar_rule_rewrites_witness :
  Re.search calendar_pattern (lit "function goBack() {") = false /\
  Re.sub calendar_pattern calendar_template (lit "function goBack() {") =
  lit "function goBack() {".
Proof.
  assert (Re.search calendar_pattern (lit "function goBack() {") = false) as H1
    by (vm_compute; reflexivity).
  split; [exact H1 |].
  destruct calendar_rule_rewrites as (_ & _ & H).
  exact (H (lit "function goBack() {") H1).
Defined.

(** C6. Every occurrence of
    [window.addEventListener('DOMContentLoaded', () => {] in the input
    reads [window.addEventListener('DOMContentLoaded', async () => {] in the
    output, whatever stands before and behind it. *)
Theorem dom_content_loaded_async (u v : str) :
  patch (u ++ lit "window.addEventListener('DOMContentLoaded', () => {" ++ v) =
  patch u ++ lit "window.addEventListener('DOMContentLoaded', async () => {" ++ patch v.
Proof.
  apply (patch_hit dom_content_loaded). vm_compute. tauto.
Qed.

(** ** The script as a whole *)

Module ScriptFacts.

(** With both files readable the script runs to its end: it prints two
    lines, writes the patched text and prints three more lines. *)
Lemma fix_modals_done (w : world) (src html : str) :
  files w !! source_path = Some (TextFile src) ->
  files w !! modal_html_path = Some (TextFile html) ->
  fix_modals w =
  (Done tt,
   World (<[source_path := TextFile (patch src)]> (files w))
         (((((stdout w ++ ["Replacements completed!"%string])
               ++ ["Saving to src/index.tsx..."%string])
              ++ ["Done! File updated."%string])
             ++ [String (ascii_of_nat 10)
                   "Note: You still need to inject the modal HTML into pages manually."])
            ++ ["The modal HTML is already injected in DJ services page."%string])).
Proof.
  intros Hs Hm. unfold fix_modals, bind, read_text.
  rewrite Hs, Hm. reflexivity.
Qed.

(** A failed read ends the script with the world as it was. *)
Lemma fix_modals_raised (w : world) :
  ~ (readable w source_path /\ readable w modal_html_path) ->
  exists e, fix_modals w = (Raised e, w) /\
            (files w !! source_path = None -> e = FileNotFound source_path).
Proof.
  intros H. unfold fix_modals, bind, read_text.
  destruct (files w !! source_path) as [[src |] |] eqn:Hs.
  - destruct (files w !! modal_html_path) as [[html |] |] eqn:Hm.
    + exfalso. apply H. split; [now exists src | now exists html].
    + eexists. split; [reflexivity | discriminate].
    + eexists. split; [reflexivity | discriminate].
  - eexists. split; [reflexivity | discriminate].
  - eexists. split; [reflexivity | reflexivity].
Qed.

End ScriptFacts.

Import ScriptFacts.

(** C7. If the source file does not exist, or either of the two reads
    fails for another reason, the script raises with the world exactly as
    it found it: nothing was written and nothing printed, so the content at
    the source path is unchanged and a missing file stays missing.  A
    missing source file is reported as such. *)
Theorem read_failure_writes_nothing (w : world) :
  ~ (readable w source_path /\ readable w modal_html_path) ->
  failed (fix_modals w) /\
  snd (fix_modals w) = w /\
  files (snd (fix_modals w)) !! source_path = files w !! source_path /\
  (files w !! source_path = None ->
   fst (fix_modals w) = Raised (FileNotFound source_path)).
Proof.
  intros H. destruct (fix_modals_raised w H) as (e & -> & He).
  repeat split; try reflexivity. intros Hnone. simpl. now rewrite He.
Qed.

Lemma read_failure_writes_nothing_witness :
  let w := World (<[modal_html_path := TextFile (lit "<div id='proModal'></div>")]> ∅) [] in
  ~ (readable w source_path /\ readable w modal_html_path) /\
  failed (fix_modals w) /\
  snd (fix_modals w) = w /\
  files (snd (fix_modals w)) !! source_path = files w !! source_path /\
  (files w !! source_path = None ->
   fst (fix_modals w) = Raised (FileNotFound source_path)).
Proof.
  intros w.
  assert (~ (readable w source_path /\ readable w modal_html_path)) as H.
  { intros [[content Hc] _]. vm_compute in Hc. discriminate Hc. }
  split; [exact H | exact (read_failure_writes_nothing w H)].
Defined.



(** ** The rule table *)



(** C10. The three rules on emoji-prefixed alerts do not keep the message:
    the message of the match is an emoji, a space and the message of the
    replacement, which is what the patcher puts in its place; every other
    literal rule keeps the message as it is.  So
    [alert('✅ Booking status updated successfully!')] becomes
    [await showSuccess('Booking status updated successfully!', 'Success')]
    and [alert('❌ Error updating status')] becomes
    [await showError('Error updating status', 'Update Failed')]. *)
Theorem emoji_rules_drop_emoji (r : rule) :
  In r literal_rules ->
  patch (rmatch r) = rrepl r /\
  (In r emoji_rules ->
   exists emoji,
     (emoji = CHECK_MARK \/ emoji = CROSS_MARK) /\
     message (rmatch r) = emoji :: 32%N :: message (rrepl r) /\
     message (rrepl r) <> message (rmatch r)) /\
  (~ In r emoji_rules -> message (rrepl r) = message (rmatch r)).
Proof.
  intros Hr. unfold literal_rules in Hr. simpl In in Hr.
  repeat destruct Hr as [<- | Hr]; [.. | contradiction];
    (split; [vm_compute; reflexivity | split]);
    first [ solve [ intros Hin; exfalso; apply in_rules_check in Hin;
                    vm_compute in Hin; discriminate Hin ]
          | solve [ intros _; exists CHECK_MARK; split; [now left |]; split;
                    [vm_compute; reflexivity
                    | intros E; vm_compute in E; discriminate E] ]
          | solve [ intros _; exists CROSS_MARK; split; [now right |]; split;
                    [vm_compute; reflexivity
                    | intros E; vm_compute in E; discriminate E] ]
          | solve [ intros _; vm_compute; reflexivity ]
          | solve [ intros Hout; exfalso; apply Hout; apply in_rules_check;
                    vm_compute; reflexivity ] ].
Qed.

Lemma emoji_rules_drop_emoji_witness :
  In status_updated literal_rules /\
  patch (lit "alert('" ++ CHECK_MARK :: lit " Booking status updated successfully!')") =
  lit "await showSuccess('Booking status updated successfully!', 'Success')" /\
  In status_error literal_rules /\
  patch (lit "alert('" ++ CROSS_MARK :: lit " Error updating status')") =
  lit "await showError('Error updating status', 'Update Failed')".
Proof.
  assert (In status_updated literal_rules) as H1
    by (apply in_rules_check; vm_compute; reflexivity).
  assert (In status_error literal_rules) as H2
    by (apply in_rules_check; vm_compute; reflexivity).
  split; [exact H1 |]. split; [exact (proj1 (emoji_rules_drop_emoji _ H1)) |].
  split; [exact H2 |]. exact (proj1 (emoji_rules_drop_emoji _ H2)).
Defined.

(** ** Further facts about the scan and the table *)

Module MoreFacts.

(** A replacement at least as long as the match never shortens a text. *)
Lemma replace_length (old new s : str) :
  old <> [] -> length old <= length new ->
  length s <= length (replace old new s).
Proof.
  intros Hold Hlen. revert s. apply (scan_ind old); [exact Hold |..].
  - rewrite replace_nil by exact Hold. reflexivity.
  - intros s E IH. rewrite replace_match by assumption.
    apply starts_with_length in E.
    rewrite length_app. rewrite length_drop in IH. lia.
  - intros c s E IH. rewrite replace_miss by assumption. simpl. lia.
Qed.

Lemma run_rules_length (rs : list rule) (s : str) :
  (forall r, In r rs -> rmatch r <> [] /\ length (rmatch r) <= length (rrepl r)) ->
  length s <= length (run_rules rs s).
Proof.
  revert s. induction rs as [|r rs IH]; intros s H; [reflexivity |].
  rewrite run_rules_cons. destruct (H r) as [Hne Hlen]; [now left |].
  transitivity (length (apply_rule r s)).
  - now apply replace_length.
  - apply IH. intros r' Hr'. apply H. now right.
Qed.

(** Whatever holds of the code points of the text and of the replacement
    holds of the code points of the output. *)
Lemma replace_Forall (P : N -> Prop) (old new s : str) :
  old <> [] -> Forall P new -> Forall P s -> Forall P (replace old new s).
Proof.
  intros Hold Hnew. revert s.
  apply (scan_ind old (fun s => Forall P s -> Forall P (replace old new s)));
    [exact Hold |..].
  - now rewrite replace_nil.
  - intros s E IH H. rewrite replace_match by assumption.
    apply Forall_app. split; [exact Hnew |]. apply IH.
    rewrite <- (take_drop (length old) s) in H.
    now apply Forall_app in H as [_ H].
  - intros c s E IH H. rewrite replace_miss by assumption.
    inversion H; subst. constructor; [assumption | now apply IH].
Qed.

Lemma run_rules_Forall (P : N -> Prop) (rs : list rule) (s : str) :
  (forall r, In r rs -> rmatch r <> [] /\ Forall P (rrepl r)) ->
  Forall P s -> Forall P (run_rules rs s).
Proof.
  revert s. induction rs as [|r rs IH]; intros s H Hs; [exact Hs |].
  rewrite run_rules_cons. destruct (H r) as [Hne Hr]; [now left |].
  apply IH; [intros r' Hr'; apply H; now right |].
  now apply replace_Forall.
Qed.

(** Rules without line feeds work line by line. *)
Lemma lines_run_rules (rs : list rule) (s : str) :
  (forall r, In r rs ->
             rmatch r <> [] /\ ~ In LF (rmatch r) /\ ~ In LF (rrepl r)) ->
  lines (run_rules rs s) = List.map (run_rules rs) (lines s).
Proof.
  revert s. induction rs as [|r rs IH]; intros s H.
  - simpl. now rewrite List.map_id.
  - rewrite run_rules_cons, IH by (intros r' Hr'; apply H; now right).
    destruct (H r) as (Hne & Ho & Hn); [now left |].
    unfold apply_rule at 1. rewrite lines_replace by assumption.
    rewrite List.map_map. reflexivity.
Qed.

Lemma replace_frame_head (old new w v : str) :
  old <> [] -> clash old w = false ->
  replace old new (w ++ v) = w ++ replace old new v.
Proof.
  intros Hold Hc. pose proof (replace_frame old new [] w v Hold Hc) as H.
  now rewrite replace_nil in H.
Qed.

Lemma replace_hit_head (old new v : str) :
  border_free old = true ->
  replace old new (old ++ v) = new ++ replace old new v.
Proof.
  intros Hb. pose proof (replace_hit old new [] v Hb) as H.
  now rewrite replace_nil in H by now apply border_free_nonempty.
Qed.

(** Two rules that cannot overlap each other in any way commute. *)
Lemma replace_commute (ma ra mb rb : str) :
  border_free ma = true -> border_free mb = true ->
  clash ma mb = false -> clash ma rb = false -> clash mb ra = false ->
  forall s,
    replace ma ra (replace mb rb s) = replace mb rb (replace ma ra s).
Proof.
  intros Ba Bb Hab Harb Hbra s.
  pose proof (border_free_nonempty _ Ba) as Ha.
  pose proof (border_free_nonempty _ Bb) as Hb.
  assert (clash mb ma = false) as Hba by now rewrite clash_sym.
  remember (length s) as n eqn:Hn. revert s Hn.
  induction n as [n IH] using lt_wf_ind. intros s ->.
  destruct s as [|c s]; [now rewrite !replace_nil |].
  destruct (starts_with ma (c :: s)) eqn:Ea;
    [| destruct (starts_with mb (c :: s)) eqn:Eb].
  - pose proof (starts_with_drop _ _ Ea) as Es.
    pose proof (starts_with_length _ _ Ea) as Hl.
    set (s' := drop (length ma) (c :: s)) in *.
    assert (length s' < length (c :: s)) as Hlt.
    { unfold s'. rewrite length_drop. destruct ma; [congruence |]. simpl in *. lia. }
    rewrite Es.
    rewrite (replace_frame_head mb rb ma s') by assumption.
    rewrite !(replace_hit_head ma ra) by assumption.
    rewrite (replace_frame_head mb rb ra) by assumption.
    f_equal. eapply IH; [exact Hlt | reflexivity].
  - pose proof (starts_with_drop _ _ Eb) as Es.
    pose proof (starts_with_length _ _ Eb) as Hl.
    set (s' := drop (length mb) (c :: s)) in *.
    assert (length s' < length (c :: s)) as Hlt.
    { unfold s'. rewrite length_drop. destruct mb; [congruence |]. simpl in *. lia. }
    rewrite Es.
    rewrite (replace_frame_head ma ra mb s') by assumption.
    rewrite !(replace_hit_head mb rb) by assumption.
    rewrite (replace_frame_head ma ra rb) by assumption.
    f_equal. eapply IH; [exact Hlt | reflexivity].
  - assert (starts_with ma (c :: replace mb rb s) = false) as Ea'.
    { destruct (starts_with ma (c :: replace mb rb s)) eqn:E; [| reflexivity].
      rewrite <- (replace_miss mb rb c s) in E by assumption.
      apply starts_with_replace in E as [E _]; [congruence | exact Hb |].
      intros q. apply clash_false_l, Harb. }
    assert (starts_with mb (c :: replace ma ra s) = false) as Eb'.
    { destruct (starts_with mb (c :: replace ma ra s)) eqn:E; [| reflexivity].
      rewrite <- (replace_miss ma ra c s) in E by assumption.
      apply starts_with_replace in E as [E _]; [congruence | exact Ha |].
      intros q. apply clash_false_l, Hbra. }
    rewrite (replace_miss mb rb c s), (replace_miss ma ra c s) by assumption.
    rewrite !replace_miss by assumption.
    f_equal. eapply IH; [| reflexivity]. simpl. lia.
Qed.

(** Rules that commute pairwise can be run in any order. *)
Lemma run_rules_permutation (rs rs' : list rule) :
  Permutation rs rs' ->
  (forall a b s, In a rs -> In b rs ->
                 apply_rule a (apply_rule b s) = apply_rule b (apply_rule a s)) ->
  forall s, run_rules rs s = run_rules rs' s.
Proof.
  induction 1 as [| x l l' Hp IH | x y l | l l' l'' Hp1 IH1 Hp2 IH2];
    intros Hc s.
  - reflexivity.
  - rewrite !run_rules_cons. apply IH.
    intros a b t Ha Hb. apply Hc; now right.
  - rewrite !run_rules_cons. f_equal. apply Hc; [right; now left | now left].
  - rewrite IH1 by exact Hc. apply IH2.
    intros a b t Ha Hb.
    apply Hc; eapply Permutation_in; try eassumption; now symmetry.
Qed.

Section Independent.

Variable rs : list rule.
Hypothesis Hrepl : repl_independent rs = true.
Hypothesis Hmatch : match_independent rs = true.

Lemma match_independent_in (a b : rule) :
  In a rs -> In b rs -> a <> b -> clash (rmatch a) (rmatch b) = false.
Proof using Hmatch.
  intros Ha Hb Hne. destruct (in_split _ _ Hb) as (pre & post & E).
  pose proof Hmatch as Hsplit. rewrite E in Hsplit.
  apply (match_independent_split _ _ _ Hsplit).
  rewrite E in Ha. apply in_app_or in Ha as [Ha | [Ha | Ha]];
    [now left | congruence | now right].
Qed.

Lemma apply_rule_commute (a b : rule) (s : str) :
  In a rs -> In b rs ->
  apply_rule a (apply_rule b s) = apply_rule b (apply_rule a s).
Proof using Hrepl Hmatch.
  intros Ha Hb. destruct (rule_eq_dec a b) as [-> | Hne]; [reflexivity |].
  unfold apply_rule. apply replace_commute.
  - now apply (match_independent_border rs).
  - now apply (match_independent_border rs).
  - now apply match_independent_in.
  - now apply repl_independent_in with rs.
  - now apply repl_independent_in with rs.
Qed.

End Independent.

(** Facts about the table, read off by evaluation. *)

Ltac each_rule H :=
  unfold all_rules, literal_rules in H; simpl In in H;
  repeat destruct H as [<- | H]; [.. | contradiction].

Lemma rules_grow (r : rule) :
  In r all_rules -> length (rmatch r) < length (rrepl r).
Proof. intros H. each_rule H; vm_compute; lia. Qed.

Lemma rules_LF_free (r : rule) :
  In r all_rules -> ~ In LF (rmatch r) /\ ~ In LF (rrepl r).
Proof.
  intros H. each_rule H; split; apply not_in_check; vm_compute; reflexivity.
Qed.

Lemma rules_repl_ascii (r : rule) :
  In r all_rules -> Forall (fun c => (c < 128)%N) (rrepl r).
Proof.
  intros H.
  assert (forallb (fun c => N.ltb c 128) (rrepl r) = true) as Hb
    by (each_rule H; vm_compute; reflexivity).
  apply List.Forall_forall. intros c Hc. apply N.ltb_lt.
  now apply (proj1 (List.forallb_forall _ _) Hb).
Qed.

Lemma rules_nonempty (r : rule) : In r all_rules -> rmatch r <> [].
Proof. apply match_independent_nonempty, rules_match_independent. Qed.

Lemma paths_differ : source_path <> modal_html_path.
Proof. discriminate. Qed.

(** A run that ends normally has read both files. *)
Lemma fix_modals_done_inv (w : world) :
  fst (fix_modals w) = Done tt ->
  exists src html,
    files w !! source_path = Some (TextFile src) /\
    files w !! modal_html_path = Some (TextFile html).
Proof.
  unfold fix_modals, bind, read_text.
  destruct (files w !! source_path) as [[src |] |]; [| discriminate..].
  destruct (files w !! modal_html_path) as [[html |] |]; [| discriminate..].
  intros _. now exists src, html.
Qed.

Lemma patch_length (d : str) : length d <= length (patch d).
Proof.
  rewrite patch_run_rules. apply run_rules_length.
  intros r Hr. split; [now apply rules_nonempty |].
  pose proof (rules_grow r Hr). lia.
Qed.

Lemma patch_clean (d : str) (r : rule) :
  In r all_rules -> occurs (rmatch r) (patch d) = false.
Proof.
  intros Hr. rewrite patch_run_rules.
  now apply run_rules_clean;
    [apply rules_repl_independent | apply rules_match_independent |].
Qed.

End MoreFacts.

Import MoreFacts.

(** ** More about the transformation *)

(** X1. The output of the transformation holds no match of any of the
    sixteen rules, and the pattern finds nothing in it. *)
Theorem patched_text_has_no_match (d : str) :
  Forall (fun r => occurs (rmatch r) (patch d) = false) all_rules /\
  Re.search calendar_pattern (patch d) = false.
Proof.
  split; [apply List.Forall_forall; apply patch_clean |].
  rewrite calendar_search. apply patch_clean. apply in_or_app. right. now left.
Qed.

(** X2. Every occurrence of the match of any of the sixteen rules is
    rewritten to the replacement of that rule, and the text before and
    behind it is transformed as if it stood alone. *)
Theorem every_occurrence_rewritten (r : rule) (u v : str) :
  In r all_rules ->
  patch (u ++ rmatch r ++ v) = patch u ++ rrepl r ++ patch v.
Proof. apply patch_hit. Qed.

Lemma every_occurrence_rewritten_witness :
  let u := lit "if (x) { " in
  let v := lit " } else { alert('Please log in to continue.'); }" in
  In confirm_dj all_rules /\
  patch (u ++ rmatch confirm_dj ++ v) = patch u ++ rrepl confirm_dj ++ patch v.
Proof.
  intros u v.
  assert (In confirm_dj all_rules) as H
    by (apply in_rules_check; vm_compute; reflexivity).
  split; [exact H | exact (every_occurrence_rewritten confirm_dj u v H)].
Defined.

(** X3. Text that the transformation produces is never rewritten again,
    whatever stands around it: a replacement of any rule in the input comes
    out as it is, between the transformed surroundings. *)
Theorem replaced_text_is_stable (r : rule) (u v : str) :
  In r all_rules ->
  patch (u ++ rrepl r ++ v) = patch u ++ rrepl r ++ patch v.
Proof.
  intros Hr. rewrite !patch_run_rules. apply run_rules_frame.
  intros a Ha. split; [now apply rules_nonempty |].
  apply repl_independent_in with all_rules;
    [apply rules_repl_independent | assumption..].
Qed.

Lemma replaced_text_is_stable_witness :
  let u := lit "alert('Please select a date first.'); " in
  let v := lit " continueToCalendar() {" in
  In error_message all_rules /\
  patch (u ++ rrepl error_message ++ v) =
  patch u ++ rrepl error_message ++ patch v.
Proof.
  intros u v.
  assert (In error_message all_rules) as H
    by (apply in_rules_check; vm_compute; reflexivity).
  split; [exact H | exact (replaced_text_is_stable error_message u v H)].
Defined.

(** X4. The transformation never shortens a text: the replacement of
    every one of the sixteen rules is longer than its match. *)
Theorem patch_never_shrinks (d : str) :
  length d <= length (patch d) /\
  Forall (fun r => length (rmatch r) < length (rrepl r)) all_rules.
Proof.
  split; [apply patch_length |].
  apply List.Forall_forall. apply rules_grow.
Qed.

(** X5. The transformation returns a text unchanged exactly when none of
    the sixteen matches occurs in it. *)
Theorem patch_fixes_iff_no_match (d : str) :
  patch d = d <->
  Forall (fun r => occurs (rmatch r) d = false) all_rules.
Proof.
  rewrite List.Forall_forall. split.
  - intros Hfix r Hr. destruct (occurs (rmatch r) d) eqn:E; [| reflexivity].
    apply occurs_spec in E as (u & v & ->).
    rewrite (patch_hit r u v Hr) in Hfix.
    apply (f_equal (@length N)) in Hfix. rewrite !length_app in Hfix.
    pose proof (patch_length u). pose proof (patch_length v).
    pose proof (rules_grow r Hr). lia.
  - apply patch_absent.
Qed.

Lemma patch_fixes_iff_no_match_witness :
  let d := lit "confirm('Delete?'); alert('Saved');" in
  Forall (fun r => occurs (rmatch r) d = false) all_rules /\ patch d = d.
Proof.
  intros d.
  assert (Forall (fun r => occurs (rmatch r) d = false) all_rules) as H
    by (repeat (constructor; [vm_compute; reflexivity |]); constructor).
  split; [exact H | exact (proj2 (patch_fixes_iff_no_match d) H)].
Defined.

(** X6. The transformation works line by line: the lines of the output are
    the transformed lines of the input, so no line is added, removed, split
    or joined. *)
Theorem patch_line_by_line (d : str) :
  lines (patch d) = List.map patch (lines d) /\
  length (lines (patch d)) = length (lines d).
Proof.
  assert (lines (patch d) = List.map patch (lines d)) as H.
  { rewrite patch_run_rules, lines_run_rules.
    - apply List.map_ext. intros l. now rewrite patch_run_rules.
    - intros r Hr. split; [now apply rules_nonempty | now apply rules_LF_free]. }
  split; [exact H |]. now rewrite H, List.length_map.
Qed.

(** X7. The order of the sixteen replacements does not matter: run in any
    other order they give the text the script gives. *)
Theorem rule_order_irrelevant (rs : list rule) (d : str) :
  Permutation all_rules rs -> run_rules rs d = patch d.
Proof.
  intros Hp. rewrite patch_run_rules. symmetry.
  apply run_rules_permutation; [exact Hp |].
  intros a b s. apply apply_rule_commute;
    [apply rules_repl_independent | apply rules_match_independent].
Qed.

Lemma rule_order_irrelevant_witness :
  let d := lit "continueToCalendar() { alert('Please select a DJ first.'); }" in
  Permutation all_rules (rev all_rules) /\
  run_rules (rev all_rules) d = patch d.
Proof.
  intros d.
  assert (Permutation all_rules (rev all_rules)) as H by apply Permutation_rev.
  split; [exact H | exact (rule_order_irrelevant (rev all_rules) d H)].
Defined.

(** X8. The [re.sub] call of the script is the literal replacement of
    [continueToCalendar() {] by [continueToCalendar() async {]: the two
    give the same text on every input. *)
Theorem calendar_sub_is_replace (s : str) :
  Re.sub calendar_pattern calendar_template s =
  replace (lit "continueToCalendar() {") (lit "continueToCalendar() async {") s.
Proof. apply calendar_as_literal. Qed.

(** X9. The transformation brings in ASCII only: every code point of the
    output is a code point of the input or below 128. *)
Theorem patch_adds_only_ascii (d : str) :
  Forall (fun c => In c d \/ (c < 128)%N) (patch d).
Proof.
  rewrite patch_run_rules. apply run_rules_Forall.
  - intros r Hr. split; [now apply rules_nonempty |].
    eapply List.Forall_impl; [| apply (rules_repl_ascii r Hr)].
    intros c Hc. now right.
  - apply List.Forall_forall. intros c Hc. now left.
Qed.

(** ** More about the script *)

(** X11. When a run of the script ends normally and a second run right
    after it ends normally too, the second run leaves every file as the
    first run left it. *)
Theorem second_run_changes_no_file (w : world) :
  fst (fix_modals w) = Done tt ->
  fst (fix_modals (snd (fix_modals w))) = Done tt ->
  files (snd (fix_modals (snd (fix_modals w)))) = files (snd (fix_modals w)).
Proof.
  intros H1 _. destruct (fix_modals_done_inv w H1) as (src & html & Hs & Hm).
  rewrite (fix_modals_done w src html Hs Hm). cbn [snd].
  erewrite (fix_modals_done _ (patch src) html).
  - cbn [snd files]. rewrite insert_insert_eq, !patch_run_rules.
    now rewrite run_rules_idempotent
      by (apply rules_repl_independent || apply rules_match_independent).
  - cbn [files]. apply lookup_insert_eq.
  - cbn [files]. rewrite lookup_insert_ne by apply paths_differ. exact Hm.
Qed.

Lemma second_run_changes_no_file_witness :
  let w := World (<[modal_html_path := TextFile (lit "<div></div>")]>
                    (<[source_path := TextFile (lit "alert('Please select a DJ first.');")]> ∅))
                 [] in
  fst (fix_modals w) = Done tt /\
  fst (fix_modals (snd (fix_modals w))) = Done tt /\
  files (snd (fix_modals (snd (fix_modals w)))) = files (snd (fix_modals w)).
Proof.
  intros w.
  assert (fst (fix_modals w) = Done tt) as H1 by (vm_compute; reflexivity).
  assert (fst (fix_modals (snd (fix_modals w))) = Done tt) as H2
    by (vm_compute; reflexivity).
  split; [exact H1 |]. split; [exact H2 |].
  exact (second_run_changes_no_file w H1 H2).
Defined.

(** X12. The modal HTML file has to be readable although its content is
    not used: with a readable source and a missing or undecodable modal
    HTML file the script raises the error of that file and patches
    nothing. *)
Theorem modal_html_required (w : world) :
  readable w source_path -> ~ readable w modal_html_path ->
  (fst (fix_modals w) = Raised (FileNotFound modal_html_path) \/
   fst (fix_modals w) = Raised (DecodeError modal_html_path)) /\
  snd (fix_modals w) = w.
Proof.
  intros [src Hs] Hm. unfold fix_modals, bind, read_text. rewrite Hs.
  destruct (files w !! modal_html_path) as [[html |] |] eqn:E; cbn [fst snd].
  - exfalso. apply Hm. now exists html.
  - split; [now right | reflexivity].
  - split; [now left | reflexivity].
Qed.

Lemma modal_html_required_witness :
  let w := World (<[source_path := TextFile (lit "alert('Please select a DJ first.');")]> ∅) [] in
  readable w source_path /\ ~ readable w modal_html_path /\
  (fst (fix_modals w) = Raised (FileNotFound modal_html_path) \/
   fst (fix_modals w) = Raised (DecodeError modal_html_path)) /\
  snd (fix_modals w) = w.
Proof.
  intros w.
  assert (readable w source_path) as Hs by (eexists; reflexivity).
  assert (~ readable w modal_html_path) as Hm.
  { intros [html Hh]. vm_compute in Hh. discriminate Hh. }
  split; [exact Hs |]. split; [exact Hm |].
  exact (modal_html_required w Hs Hm).
Defined.
